(** * lazycache: a cache that favours returning stale data over blocking

    Shallow embedding of [lazycache.go] and verification of its
    stale-while-revalidate protocol: the read path [Get], the write path
    [Set], the single-key refresh [Fetch], the batch refresh [groupFetch]
    with its single-key fallback, and the strategy swap [SwapCache]. *)

From stdpp Require Import gmap strings list.
From Stdlib Require Import ZArith Lia.

Local Open Scope Z_scope.

(** ** Data model *)

Section Model.

(** [V] are the non-nil dynamic values an [interface{}] can hold, [E] the
    non-nil [error] values, and [W] is everything outside the cache that
    the user-supplied fetchers and the wall clock depend on and change
    (the backing store, the counters of the test fetchers, the clock). *)
Context {V E W : Type}.

(** [time.Now()]: reading the clock yields an instant (in nanoseconds) and
    leaves the outside world in a possibly different state. *)
Variable time_Now : W -> Z * W.

(** [interface{}]: [None] is [nil]. *)
Definition interface : Type := option V.

(** [error]: [None] is [nil]. *)
Definition error : Type := option E.

(** [object != nil] *)
Definition notnil {A : Type} (o : option A) : bool :=
  match o with
  | Some _ => true
  | None => false
  end.

(** [type Fetcher func(id string) (interface{}, error)] *)
Definition Fetcher : Type := string -> W -> (interface * error) * W.

(** A [map[string]interface{}] value as [groupFetch] sees it: [None] is the
    nil map; [Some l] is a non-nil map, its entries listed in the order in
    which the [range] statement visits them.  Go leaves that order
    unspecified, so every order is a possible [l]; the keys of a Go map are
    pairwise distinct, which is [NoDup l.*1]. *)
Definition gomap : Type := option (list (string * interface)).

(** [type GroupFetcher func() (map[string]interface{}, error)] *)
Definition GroupFetcher : Type := W -> (gomap * error) * W.

(** [type Item struct] *)
Record Item : Type := mkItem {
  object : interface;
  expires : Z
}.

(** [type LazyCache struct].  The [lock] field has no counterpart: the
    critical sections it protects are the atomic steps of the model. *)
Record LazyCache : Type := mkLazyCache {
  fetcher : option Fetcher;
  groupFetcher : option GroupFetcher;
  ttl : Z;
  items : gmap string Item
}.

(** Invocations of the user-supplied strategies, recorded in the order in
    which they happen: which function value was called, and on which id. *)
Inductive Call : Type :=
| CallFetcher (f : Fetcher) (id : string)
| CallGroupFetcher (g : GroupFetcher).

(** A goroutine started by a [go] statement and not yet run. *)
Inductive Goroutine : Type :=
| GoFetch (id : string)        (* go cache.Fetch(id) *)
| GoGroupFetch (id : string).  (* go cache.groupFetch(id) *)

(** The whole program state: the shared cache object, the outside world,
    the strategy invocations so far, and the goroutines started but not
    yet scheduled. *)
Record State : Type := mkState {
  cache : LazyCache;
  world : W;
  calls : list Call;
  goroutines : list Goroutine
}.

(** ** The monad of cache operations

    An operation transforms the state and returns a result, or panics
    ([None]): the only panic the code can raise is the call of a nil
    function value. *)
Definition M (A : Type) : Type := State -> option (A * State).

Definition ret {A : Type} (a : A) : M A := fun st => Some (a, st).

Definition bind {A B : Type} (m : M A) (k : A -> M B) : M B :=
  fun st =>
    match m st with
    | Some (a, st') => k a st'
    | None => None
    end.

Definition panic {A : Type} : M A := fun _ => None.

Local Notation "'let*' x ':=' m 'in' k" := (bind m (fun x => k))
  (at level 10, x binder, m at level 100, k at level 200).

Definition getCache : M LazyCache := fun st => Some (cache st, st).

Definition putItems (m : gmap string Item) : M unit := fun st =>
  Some (tt, mkState
              (mkLazyCache (fetcher (cache st)) (groupFetcher (cache st))
                           (ttl (cache st)) m)
              (world st) (calls st) (goroutines st)).

(** [time.Now()] *)
Definition now : M Z := fun st =>
  let '(t, w) := time_Now (world st) in
  Some (t, mkState (cache st) w (calls st) (goroutines st)).

(** [t.After(u)] *)
Definition After (t u : Z) : bool := u <? t.

(** [cache.fetcher(id)] for a non-nil [cache.fetcher]. *)
Definition callFetcher (f : Fetcher) (id : string) : M (interface * error) :=
  fun st =>
    let '(r, w) := f id (world st) in
    Some (r, mkState (cache st) w (calls st ++ [CallFetcher f id])
                     (goroutines st)).

(** [cache.groupFetcher()] for a non-nil [cache.groupFetcher]. *)
Definition callGroupFetcher (g : GroupFetcher) : M (gomap * error) :=
  fun st =>
    let '(r, w) := g (world st) in
    Some (r, mkState (cache st) w (calls st ++ [CallGroupFetcher g])
                     (goroutines st)).

(** The [go] statement: the call is queued, the caller goes on. *)
Definition go (g : Goroutine) : M unit := fun st =>
  Some (tt, mkState (cache st) (world st) (calls st) (goroutines st ++ [g])).

(** ** Constructors *)

(** [func New(fetcher, ttl, size)]; [size] is only a capacity hint. *)
Definition New (fetcher : option Fetcher) (ttl : Z) (size : Z) : LazyCache :=
  mkLazyCache fetcher None ttl ∅.

(** [func NewGroup(groupFetcher, fetcher, ttl, size)] *)
Definition NewGroup (groupFetcher : option GroupFetcher)
    (fetcher : option Fetcher) (ttl : Z) (size : Z) : LazyCache :=
  mkLazyCache fetcher groupFetcher ttl ∅.

(** ** Operations *)

(** [func (cache *LazyCache) SwapCache(fetcher, groupFetcher)]: both
    strategy fields are overwritten; the receiver is returned. *)
Definition SwapCache (fetcher : option Fetcher)
    (groupFetcher : option GroupFetcher) : M unit := fun st =>
  Some (tt, mkState
              (mkLazyCache fetcher groupFetcher (ttl (cache st))
                           (items (cache st)))
              (world st) (calls st) (goroutines st)).

(** [func (cache *LazyCache) Set(id, object)].  An existing item is
    updated in place through its pointer, field by field; a missing one is
    allocated.  The clock is read inside the critical section. *)
Definition Set_ (id : string) (obj : interface) : M unit :=
  let* c := getCache in
  match items c !! id with
  | Some current =>
      let* t := now in
      let current := mkItem (object current) (t + ttl c) in
      let current := mkItem obj (expires current) in
      putItems (<[id := current]> (items c))
  | None =>
      let* t := now in
      putItems (<[id := mkItem obj (t + ttl c)]> (items c))
  end.

(** [func (cache *LazyCache) Fetch(id)] *)
Definition Fetch (id : string) : M (interface * bool) :=
  let* c := getCache in
  match fetcher c with
  | None => panic
  | Some f =>
      let* r := callFetcher f id in
      let '(obj, err) := r in
      if notnil err then ret (None, false)
      else let* _ := Set_ id obj in ret (obj, notnil obj)
  end.

(** The [range] loop of [groupFetch]: every pair is stored, and [res]
    takes the value of the pair whose key is [id]. *)
Fixpoint rangeSet (id : string) (objects : list (string * interface))
    (res : interface) : M interface :=
  match objects with
  | [] => ret res
  | (k, v) :: rest =>
      let* _ := Set_ k v in
      rangeSet id rest (if String.eqb k id then v else res)
  end.

(** The entries a [range] statement visits: none for the nil map. *)
Definition entries (objects : gomap) : list (string * interface) :=
  match objects with
  | Some l => l
  | None => []
  end.

(** [func (cache *LazyCache) groupFetch(id)] *)
Definition groupFetch (id : string) : M (interface * bool) :=
  let* c := getCache in
  match groupFetcher c with
  | None => panic
  | Some g =>
      let* r := callGroupFetcher g in
      let '(objects, err) := r in
      if notnil err || negb (notnil objects) then
        let* c := getCache in
        if negb (notnil (fetcher c)) then ret (None, false)
        else Fetch id (* fallback to single fetch *)
      else
        let* res := rangeSet id (entries objects) None in
        ret (res, notnil res)
  end.

(** [func (cache *LazyCache) Get(id)] *)
Definition Get (id : string) : M (interface * bool) :=
  let* c := getCache in
  match items c !! id with
  | None =>
      if notnil (groupFetcher c) then groupFetch id else Fetch id
  | Some item =>
      let expires := expires item in
      let object := object item in
      let* t := now in
      let* _ :=
        if After t expires then
          if notnil (groupFetcher c) then go (GoGroupFetch id)
          else go (GoFetch id)
        else ret tt in
      ret (object, notnil object)
  end.

(** ** Goroutines

    A started goroutine runs the call it was started with and drops the
    result.  The strategy fields are read when the call runs, not when the
    [go] statement is executed.  Goroutines are interleaved call by call: a
    call of the package, fetcher invocation included, runs to completion
    before the scheduler picks the next one. *)
Definition run (g : Goroutine) : M unit :=
  match g with
  | GoFetch id => let* _ := Fetch id in ret tt
  | GoGroupFetch id => let* _ := groupFetch id in ret tt
  end.

(** The scheduler picks the [n]-th pending goroutine, if there is one, and
    runs it. *)
Definition schedule (n : nat) : M unit := fun st =>
  match goroutines st !! n with
  | None => Some (tt, st)
  | Some g =>
      run g (mkState (cache st) (world st) (calls st)
                     (delete n (goroutines st)))
  end.

(** What a client of the package, or the scheduler, can do next. *)
Inductive Op : Type :=
| OpGet (id : string)
| OpSet (id : string) (obj : interface)
| OpFetch (id : string)
| OpGroupFetch (id : string)
| OpSwapCache (f : option Fetcher) (g : option GroupFetcher)
| OpSchedule (n : nat).

Definition exec (op : Op) : M unit :=
  match op with
  | OpGet id => let* _ := Get id in ret tt
  | OpSet id obj => Set_ id obj
  | OpFetch id => let* _ := Fetch id in ret tt
  | OpGroupFetch id => let* _ := groupFetch id in ret tt
  | OpSwapCache f g => SwapCache f g
  | OpSchedule n => schedule n
  end.

(** ** Auxiliary notions for the statements *)

(** The instant a clock reading in world [w] yields, and the world it
    leaves behind. *)
Definition clock_at (w : W) : Z := fst (time_Now w).
Definition tick (w : W) : W := snd (time_Now w).

(** The world after [n] successive clock readings. *)
Fixpoint ticks (n : nat) (w : W) : W :=
  match n with
  | O => w
  | S n => ticks n (tick w)
  end.

(** The value the [range] loop leaves in [res]. *)
Fixpoint picked (id : string) (l : list (string * interface))
    (res : interface) : interface :=
  match l with
  | [] => res
  | (k, v) :: rest => picked id rest (if String.eqb k id then v else res)
  end.

(** The entry map after the [range] loop has stored the pairs of [l], the
    first of them at a clock reading taken in world [w]. *)
Fixpoint stored (ttl : Z) (l : list (string * interface)) (w : W)
    (m : gmap string Item) : gmap string Item :=
  match l with
  | [] => m
  | (k, v) :: rest =>
      stored ttl rest (tick w) (<[k := mkItem v (clock_at w + ttl)]> m)
  end.

(** The goroutine a stale read starts. *)
Definition refresh_of (id : string) (st : State) : Goroutine :=
  if notnil (groupFetcher (cache st)) then GoGroupFetch id else GoFetch id.

(** [c] is an invocation, for the key [id], of one of the strategies [f]
    and [g]. *)
Definition strategy_call (f : option Fetcher) (g : option GroupFetcher)
    (id : string) (c : Call) : Prop :=
  match c with
  | CallFetcher f0 id0 => f = Some f0 /\ id0 = id
  | CallGroupFetcher g0 => g = Some g0
  end.



(** The outcome of one single-key fetch of [id] started in [st], in which
    the fetcher [f] returned [(obj, err)] and left the world as [w1]: the
    call is recorded; on an error the answer is [(nil, false)] and the cache
    is as before; otherwise the answer is [(obj, obj != nil)] and [obj] is
    stored under [id], expiring [ttl] after the clock reading taken in
    [w1]. *)
Definition single_fetch_outcome (id : string) (f : Fetcher)
    (obj : interface) (err : error) (w1 : W) (st : State)
    (r : interface * bool) (st' : State) : Prop :=
  calls st' = calls st ++ [CallFetcher f id] /\
  goroutines st' = goroutines st /\
  if notnil err then
    r = (None, false) /\ cache st' = cache st /\ world st' = w1
  else
    r = (obj, notnil obj) /\
    items (cache st') =
      <[id := mkItem obj (clock_at w1 + ttl (cache st))]> (items (cache st)) /\
    world st' = tick w1.

(** A state with the entry map replaced. *)
Definition with_items (m : gmap string Item) (st : State) : State :=
  mkState (mkLazyCache (fetcher (cache st)) (groupFetcher (cache st))
                       (ttl (cache st)) m)
          (world st) (calls st) (goroutines st).


End Model.

(** ** The earlier revision of the package

    Before the group fetcher was added, [Get] and [Fetch] returned the
    fetcher's error as a third result.  [New], [Set] and the [Item] type
    were as they are now; the struct had no [groupFetcher] field, and the
    operations below do not read it. *)

Module Legacy.
Section Model.

Context {V E W : Type}.
Variable time_Now : W -> Z * W.

Local Notation "'let*' x ':=' m 'in' k" := (bind m (fun x => k))
  (at level 10, x binder, m at level 100, k at level 200).

(** [func (cache *LazyCache) Fetch(id string) (interface{}, bool, error)] *)
Definition Fetch (id : string)
  : @M V E W (@interface V * bool * @error E) :=
  let* c := getCache in
  match fetcher c with
  | None => panic
  | Some f =>
      let* r := callFetcher f id in
      let '(obj, err) := r in
      if notnil err then ret (None, false, err)
      else let* _ := Set_ time_Now id obj in ret (obj, notnil obj, None)
  end.

(** [func (cache *LazyCache) Get(id string) (interface{}, bool, error)] *)
Definition Get (id : string)
  : @M V E W (@interface V * bool * @error E) :=
  let* c := getCache in
  match items c !! id with
  | None => Fetch id
  | Some item =>
      let expires := expires item in
      let object := object item in
      let* t := now time_Now in
      let* _ := if After t expires then go (GoFetch id) else ret tt in
      ret (object, notnil object, None)
  end.

End Model.
End Legacy.

(** ** The test suite's world and fetchers

    The fetchers of [lazycache_test.go] close over integer counters; here the
    counters and a clock make up the outside world.  Every reading of the
    clock takes one nanosecond. *)

Record World : Type := mkWorld {
  count : Z;
  groupCount : Z;
  clock : Z
}.

Definition wallclock (w : World) : Z * World :=
  (clock w, mkWorld (count w) (groupCount w) (clock w + 1)).

(** [time.Sleep(d)] *)
Definition sleep (d : Z) (w : World) : World :=
  mkWorld (count w) (groupCount w) (clock w + d).

Definition countFetcher : @Fetcher Z string World := fun id w =>
  let w := mkWorld (count w + 1) (groupCount w) (clock w) in
  ((Some (count w), None), w).

Definition nilFetcher : @Fetcher Z string World := fun id w =>
  let w := mkWorld (count w + 1) (groupCount w) (clock w) in
  ((None, None), w).

Definition errorFetcher : @Fetcher Z string World := fun id w =>
  ((None, Some "oops"%string), w).

Definition groupStoreFetcher : @GroupFetcher Z string World := fun w =>
  ((Some [("Hi"%string, Some (groupCount w));
          ("Bye"%string, Some (groupCount w))], None), w).

Definition groupCountFetcher : @GroupFetcher Z string World := fun w =>
  let w := mkWorld (count w) (groupCount w + 1) (clock w) in
  ((Some [("Hi"%string, Some (groupCount w))], None), w).

Definition groupNilFetcher : @GroupFetcher Z string World := fun w =>
  let w := mkWorld (count w) (groupCount w + 1) (clock w) in
  ((None, None), w).

Definition groupErrorFetcher : @GroupFetcher Z string World := fun w =>
  ((None, Some "oops"%string), w).

(** Two group fetchers the test suite does not have: one that returns the
    empty, non-nil map [map[string]interface{}{}], and one whose map holds
    nil for "Hi". *)
Definition groupEmptyFetcher : @GroupFetcher Z string World := fun w =>
  let w := mkWorld (count w) (groupCount w + 1) (clock w) in
  ((Some [], None), w).

Definition groupNilValueFetcher : @GroupFetcher Z string World := fun w =>
  let w := mkWorld (count w) (groupCount w + 1) (clock w) in
  ((Some [("Hi"%string, None)], None), w).

(** A program start: a fresh cache, counters at zero, the clock at [t0]. *)
Definition start (c : @LazyCache Z string World) (t0 : Z)
  : @State Z string World :=
  mkState c (mkWorld 0 0 t0) [] [].

(** [cache.items[id] = &Item{object: obj, expires: t}], as the tests seed
    the cache. *)
Definition seed (id : string) (obj : option Z) (t : Z)
    (st : @State Z string World) : @State Z string World :=
  mkState
    (mkLazyCache (fetcher (cache st)) (groupFetcher (cache st))
                 (ttl (cache st)) (<[id := mkItem obj t]> (items (cache st))))
    (world st) (calls st) (goroutines st).

(** One second, one minute, in nanoseconds. *)
Definition Second : Z := 1000000000.
Definition Minute : Z := 60 * Second.

(** One microsecond, one hour. *)
Definition Microsecond : Z := 1000.
Definition Hour : Z := 60 * Minute.

(** The states the test suite sets up before the call it checks. *)

(** [New(errorFetcher, time.Microsecond, 1)] with "paul" seeded as 99,
    expired an hour ago. *)
Definition stale_paul : @State Z string World :=
  seed "paul" (Some 99) (- Hour)
       (start (New (Some errorFetcher) Microsecond 1) 0).

(** [New(countFetcher, time.Second, 1)] holding "Hi" as 1, still fresh. *)
Definition fresh_hi : @State Z string World :=
  seed "Hi" (Some 1) Second (start (New (Some countFetcher) Second 1) 0).

(** [New(nilFetcher, time.Minute, 1)] holding nil for "Hi", still fresh. *)
Definition nil_hi : @State Z string World :=
  seed "Hi" None Minute (start (New (Some nilFetcher) Minute 1) 0).


(** [New(countFetcher, time.Second, 1)], empty. *)
Definition single_empty : @State Z string World :=
  start (New (Some countFetcher) Second 1) 0.

(** [NewGroup(groupNilFetcher, countFetcher, time.Minute, 1)], empty. *)
Definition group_fallback : @State Z string World :=
  start (NewGroup (Some groupNilFetcher) (Some countFetcher) Minute 1) 0.

(** [NewGroup(groupStoreFetcher, nil, time.Second, 1)], empty. *)
Definition group_store : @State Z string World :=
  start (NewGroup (Some groupStoreFetcher) None Second 1) 0.

(** A group fetcher returning the empty non-nil map, with [countFetcher]
    as the single-key fetcher; empty cache. *)
Definition group_empty : @State Z string World :=
  start (NewGroup (Some groupEmptyFetcher) (Some countFetcher) Minute 1) 0.

(** A group fetcher whose map holds nil for "Hi", no single-key fetcher;
    "Hi" seeded as 99, expired a minute ago. *)
Definition group_nil_value : @State Z string World :=
  seed "Hi" (Some 99) (- Minute)
       (start (NewGroup (Some groupNilValueFetcher) None Minute 1) 0).

(** [New(countFetcher, time.Minute, 1)] after one fetch (the counter is at
    1), with "Hi" held as 1 and expired a minute ago. *)
Definition stale_count : @State Z string World :=
  seed "Hi" (Some 1) (- Minute)
       (mkState (New (Some countFetcher) Minute 1) (mkWorld 1 0 0) [] []).

(** [New(errorFetcher, time.Microsecond, 1)], empty. *)
Definition error_empty : @State Z string World :=
  start (New (Some errorFetcher) Microsecond 1) 0.


(** * Verification *)

Section Proofs.

Context {V E W : Type}.
Variable time_Now : W -> Z * W.

#[local] Arguments now : simpl never.
#[local] Arguments Set_ : simpl never.
#[local] Arguments Fetch : simpl never.
#[local] Arguments rangeSet : simpl never.
#[local] Arguments groupFetch : simpl never.
#[local] Arguments Get : simpl never.

#[local] Abbreviation State := (@State V E W).
#[local] Abbreviation Fetcher := (@Fetcher V E W).
#[local] Abbreviation GroupFetcher := (@GroupFetcher V E W).
#[local] Abbreviation interface := (@interface V).
#[local] Abbreviation clock_at := (clock_at time_Now).
#[local] Abbreviation tick := (tick time_Now).
#[local] Abbreviation ticks := (ticks time_Now).
#[local] Abbreviation stored := (stored time_Now).
#[local] Abbreviation now := (now time_Now).
#[local] Abbreviation Set_ := (Set_ time_Now).
#[local] Abbreviation Fetch := (Fetch time_Now).
#[local] Abbreviation rangeSet := (rangeSet time_Now).
#[local] Abbreviation groupFetch := (groupFetch time_Now).
#[local] Abbreviation Get := (Get time_Now).
#[local] Abbreviation run := (run time_Now).
#[local] Abbreviation schedule := (schedule time_Now).
#[local] Abbreviation exec := (exec time_Now).

Implicit Types (st : State) (id k : string) (obj v : interface).


(** ** Equations of the operations *)

Ltac step_m :=
  unfold bind, getCache, putItems, ret, panic, go, callFetcher,
    callGroupFetcher; cbn.

Lemma now_eq st :
  now st = Some (clock_at (world st),
                 mkState (cache st) (tick (world st)) (calls st)
                         (goroutines st)).
Proof.
  unfold now, clock_at, tick.
  by destruct (time_Now (world st)).
Qed.

Lemma Set_eq id obj st :
  Set_ id obj st =
  Some (tt, mkState (cache (with_items
                       (<[id := mkItem obj (clock_at (world st)
                                            + ttl (cache st))]>
                          (items (cache st))) st))
                    (tick (world st)) (calls st) (goroutines st)).
Proof.
  unfold Set_. step_m.
  destruct (items (cache st) !! id); step_m; by rewrite now_eq.
Qed.

Lemma Fetch_panic id st :
  fetcher (cache st) = None -> Fetch id st = None.
Proof. intros Hf. unfold Fetch. step_m. by rewrite Hf. Qed.

Lemma Fetch_error id st (f : Fetcher) obj e w1 :
  fetcher (cache st) = Some f ->
  f id (world st) = ((obj, Some e), w1) ->
  Fetch id st =
  Some ((None, false),
        mkState (cache st) w1 (calls st ++ [CallFetcher f id])
                (goroutines st)).
Proof.
  intros Hf Hr. unfold Fetch. step_m. rewrite Hf. step_m.
  by rewrite Hr.
Qed.

Lemma Fetch_success id st (f : Fetcher) obj w1 :
  fetcher (cache st) = Some f ->
  f id (world st) = ((obj, None), w1) ->
  Fetch id st =
  Some ((obj, notnil obj),
        mkState (cache (with_items
                   (<[id := mkItem obj (clock_at w1 + ttl (cache st))]>
                      (items (cache st))) st))
                (tick w1) (calls st ++ [CallFetcher f id])
                (goroutines st)).
Proof.
  intros Hf Hr. unfold Fetch. step_m. rewrite Hf. step_m.
  rewrite Hr. cbn. rewrite Set_eq. cbn. by rewrite Hf.
Qed.

Lemma rangeSet_eq id (l : list (string * interface)) : forall res st,
  rangeSet id l res st =
  Some (picked id l res,
        mkState (cache (with_items
                   (stored (ttl (cache st)) l (world st) (items (cache st)))
                   st))
                (ticks (length l) (world st)) (calls st) (goroutines st)).
Proof.
  induction l as [|[k v] l IH]; intros res st.
  - by destruct st as [[] ? ? ?].
  - change (rangeSet id ((k, v) :: l) res st)
      with (bind (Set_ k v)
              (fun _ => rangeSet id l (if String.eqb k id then v else res))
              st).
    unfold bind. rewrite Set_eq, IH. reflexivity.
Qed.

Lemma groupFetch_panic id st :
  groupFetcher (cache st) = None -> groupFetch id st = None.
Proof. intros Hg. unfold groupFetch. step_m. by rewrite Hg. Qed.

(** The state in which the fallback runs: the group fetcher has been
    called and has left the world as [w1]. *)
Lemma groupFetch_fallback id st (g : GroupFetcher) (f : Fetcher) objects err w1 :
  groupFetcher (cache st) = Some g ->
  g (world st) = ((objects, err), w1) ->
  notnil err || negb (notnil objects) = true ->
  fetcher (cache st) = Some f ->
  groupFetch id st =
  Fetch id (mkState (cache st) w1 (calls st ++ [CallGroupFetcher g])
                    (goroutines st)).
Proof.
  intros Hg Hr Hc Hf. unfold groupFetch. step_m.
  rewrite Hg. step_m. rewrite Hr. cbn. rewrite Hc. step_m. by rewrite Hf.
Qed.

Lemma groupFetch_no_fallback id st (g : GroupFetcher) objects err w1 :
  groupFetcher (cache st) = Some g ->
  g (world st) = ((objects, err), w1) ->
  notnil err || negb (notnil objects) = true ->
  fetcher (cache st) = None ->
  groupFetch id st =
  Some ((None, false),
        mkState (cache st) w1 (calls st ++ [CallGroupFetcher g])
                (goroutines st)).
Proof.
  intros Hg Hr Hc Hf. unfold groupFetch. step_m.
  rewrite Hg. step_m. rewrite Hr. cbn. rewrite Hc. step_m. by rewrite Hf.
Qed.

Lemma groupFetch_success id st (g : GroupFetcher) l w1 :
  groupFetcher (cache st) = Some g ->
  g (world st) = ((Some l, None), w1) ->
  groupFetch id st =
  Some ((picked id l None, notnil (picked id l None)),
        mkState (cache (with_items
                   (stored (ttl (cache st)) l w1 (items (cache st))) st))
                (ticks (length l) w1) (calls st ++ [CallGroupFetcher g])
                (goroutines st)).
Proof.
  intros Hg Hr. unfold groupFetch. step_m.
  rewrite Hg. step_m. rewrite Hr. cbn. rewrite rangeSet_eq. cbn.
  by rewrite Hg.
Qed.

Lemma Get_miss id st :
  items (cache st) !! id = None ->
  Get id st =
  if notnil (groupFetcher (cache st)) then groupFetch id st else Fetch id st.
Proof.
  intros Hm. unfold Get. step_m. rewrite Hm.
  by destruct (groupFetcher (cache st)).
Qed.

Lemma Get_hit id st (item : Item) :
  items (cache st) !! id = Some item ->
  Get id st =
  Some ((object item, notnil (object item)),
        mkState (cache st) (tick (world st)) (calls st)
                (goroutines st ++
                   if After (clock_at (world st)) (expires item)
                   then [refresh_of id st] else [])).
Proof.
  intros Hh. unfold Get, refresh_of. step_m. rewrite Hh.
  step_m. rewrite now_eq. cbn.
  destruct (After _ _); [destruct (groupFetcher _)|]; cbn;
    by rewrite ?app_nil_r.
Qed.

(** ** The entry map after the range loop *)

Lemma stored_notin ttl (l : list (string * interface)) k : forall w m,
  k ∉ l.*1 -> stored ttl l w m !! k = m !! k.
Proof.
  induction l as [|[k' v'] l IH]; intros w m Hk; [done|].
  cbn in Hk. apply not_elem_of_cons in Hk as [Hne Hk].
  cbn. rewrite IH by done. by rewrite lookup_insert_ne.
Qed.

Lemma stored_lookup ttl (l : list (string * interface)) k v : forall i w m,
  NoDup l.*1 ->
  l !! i = Some (k, v) ->
  stored ttl l w m !! k = Some (mkItem v (clock_at (ticks i w) + ttl)).
Proof.
  induction l as [|[k' v'] l IH]; intros i w m Hnd Hi; [done|].
  cbn in Hnd. apply NoDup_cons in Hnd as [Hfresh Hnd].
  destruct i as [|i]; cbn in Hi.
  - injection Hi as -> ->. cbn.
    rewrite stored_notin by done. by rewrite lookup_insert_eq.
  - cbn. by apply IH.
Qed.

Lemma picked_notin id (l : list (string * interface)) : forall res,
  id ∉ l.*1 -> picked id l res = res.
Proof.
  induction l as [|[k' v'] l IH]; intros res Hk; [done|].
  cbn in Hk. apply not_elem_of_cons in Hk as [Hne Hk].
  cbn. rewrite IH by done.
  destruct (String.eqb_spec k' id); [congruence|done].
Qed.

Lemma picked_in id (l : list (string * interface)) v : forall res,
  NoDup l.*1 -> (id, v) ∈ l -> picked id l res = v.
Proof.
  induction l as [|[k' v'] l IH]; intros res Hnd Hin.
  - by apply elem_of_nil in Hin.
  - cbn in Hnd. apply NoDup_cons in Hnd as [Hfresh Hnd].
    apply elem_of_cons in Hin as [Heq|Hin]; cbn.
    + injection Heq as <- <-. rewrite String.eqb_refl.
      by apply picked_notin.
    + by apply IH.
Qed.

(** ** Case analysis of a fetch that returned *)

Lemma Fetch_inv id st r st' :
  Fetch id st = Some (r, st') ->
  exists (f : Fetcher) obj err w1,
    fetcher (cache st) = Some f /\
    f id (world st) = ((obj, err), w1) /\
    ((notnil err = true /\ r = (None, false) /\
      st' = mkState (cache st) w1 (calls st ++ [CallFetcher f id])
                    (goroutines st))
     \/
     (err = None /\ r = (obj, notnil obj) /\
      st' = mkState (cache (with_items
                       (<[id := mkItem obj (clock_at w1 + ttl (cache st))]>
                          (items (cache st))) st))
                    (tick w1) (calls st ++ [CallFetcher f id])
                    (goroutines st))).
Proof.
  intros H. destruct (fetcher (cache st)) as [f|] eqn:Hf;
    [|by rewrite Fetch_panic in H].
  destruct (f id (world st)) as [[obj [e|]] w1] eqn:Hr.
  - rewrite (Fetch_error _ _ _ _ _ _ Hf Hr) in H. injection H as <- <-.
    exists f, obj, (Some e), w1. do 2 (split; [done|]). by left.
  - rewrite (Fetch_success _ _ _ _ _ Hf Hr) in H. injection H as <- <-.
    exists f, obj, None, w1. do 2 (split; [done|]). right.
    do 2 (split; [done|]). cbn. by rewrite Hf.
Qed.

Lemma groupFetch_inv id st r st' :
  groupFetch id st = Some (r, st') ->
  exists (g : GroupFetcher) objects err w1,
    groupFetcher (cache st) = Some g /\
    g (world st) = ((objects, err), w1) /\
    ((notnil err || negb (notnil objects) = true /\
      fetcher (cache st) = None /\ r = (None, false) /\
      st' = mkState (cache st) w1 (calls st ++ [CallGroupFetcher g])
                    (goroutines st))
     \/
     (notnil err || negb (notnil objects) = true /\
      Fetch id (mkState (cache st) w1 (calls st ++ [CallGroupFetcher g])
                        (goroutines st)) = Some (r, st'))
     \/
     (exists l, objects = Some l /\ err = None /\
        r = (picked id l None, notnil (picked id l None)) /\
        st' = mkState (cache (with_items
                         (stored (ttl (cache st)) l w1 (items (cache st)))
                         st))
                      (ticks (length l) w1)
                      (calls st ++ [CallGroupFetcher g]) (goroutines st))).
Proof.
  intros H. destruct (groupFetcher (cache st)) as [g|] eqn:Hg;
    [|by rewrite groupFetch_panic in H].
  destruct (g (world st)) as [[objects err] w1] eqn:Hr.
  exists g, objects, err, w1. do 2 (split; [done|]).
  destruct (notnil err || negb (notnil objects)) eqn:Hc.
  - destruct (fetcher (cache st)) as [f|] eqn:Hf.
    + rewrite (groupFetch_fallback _ _ _ _ _ _ _ Hg Hr Hc Hf) in H.
      right; left. by split.
    + rewrite (groupFetch_no_fallback _ _ _ _ _ _ Hg Hr Hc Hf) in H.
      injection H as <- <-. left. by repeat split.
  - destruct err; [done|]. destruct objects as [l|]; [|done].
    rewrite (groupFetch_success _ _ _ _ _ Hg Hr) in H.
    injection H as <- <-. right; right. exists l.
    do 3 (split; [done|]). cbn. by rewrite Hg.
Qed.

(** A single fetch with a fetcher configured returns, with the outcome
    that the fetcher's result determines. *)
Lemma Fetch_outcome id st (f : Fetcher) obj err w1 :
  fetcher (cache st) = Some f ->
  f id (world st) = ((obj, err), w1) ->
  exists r st',
    Fetch id st = Some (r, st') /\
    single_fetch_outcome time_Now id f obj err w1 st r st'.
Proof.
  intros Hf Hr. unfold single_fetch_outcome. destruct err as [e|].
  - rewrite (Fetch_error _ _ _ _ _ _ Hf Hr). by eexists _, _.
  - rewrite (Fetch_success _ _ _ _ _ Hf Hr). by eexists _, _.
Qed.

(** ** Scheduling a refresh *)

Lemma schedule_last (gs : list Goroutine) (g : Goroutine) st :
  goroutines st = gs ++ [g] ->
  schedule (length gs) st =
  run g (mkState (cache st) (world st) (calls st) gs).
Proof.
  intros Hg. unfold schedule. rewrite Hg.
  assert (delete (length gs) (gs ++ [g]) = gs) as ->.
  { clear. induction gs as [|x gs IH]; [done|]. cbn. f_equal. exact IH. }
  rewrite lookup_app_r by lia. by rewrite Nat.sub_diag.
Qed.

(** ** The read path *)


(** C2. A read of an entry that is not expired ([now <= expires]) returns
    the stored object unchanged and invokes no strategy: the record of
    invocations is what it was, no goroutine is started, and the cache is
    untouched. *)
Theorem C2_fresh_read_does_not_fetch id st (item : Item) :
  items (cache st) !! id = Some item ->
  clock_at (world st) <= expires item ->
  exists st',
    Get id st = Some ((object item, notnil (object item)), st') /\
    cache st' = cache st /\
    world st' = tick (world st) /\
    calls st' = calls st /\
    goroutines st' = goroutines st.
Proof.
  intros Hitem Hexp. eexists. rewrite (Get_hit _ _ _ Hitem).
  assert (After (clock_at (world st)) (expires item) = false) as ->
    by (unfold After; lia).
  repeat split. cbn. by rewrite app_nil_r.
Qed.

(** C10. A cached nil that is not expired answers [(nil, false)] without any
    fetch: no strategy is invoked and no goroutine is started, so a
    not-found answer does not mean that a fetch was attempted. *)
Theorem C10_cached_nil_suppresses_fetch id st (item : Item) :
  items (cache st) !! id = Some item ->
  object item = None ->
  clock_at (world st) <= expires item ->
  exists st',
    Get id st = Some ((None, false), st') /\
    cache st' = cache st /\
    calls st' = calls st /\
    goroutines st' = goroutines st.
Proof.
  intros Hitem Hnil Hexp. eexists. rewrite (Get_hit _ _ _ Hitem).
  assert (After (clock_at (world st)) (expires item) = false) as ->
    by (unfold After; lia).
  rewrite Hnil. repeat split. cbn. by rewrite app_nil_r.
Qed.

(** The refresh logic shared by the miss and the stale path, run with some
    strategy configured: it returns, and every invocation it makes is one
    of the configured strategies, for the requested key. *)
Lemma refresh_invokes_configured id st :
  notnil (groupFetcher (cache st)) || notnil (fetcher (cache st)) = true ->
  exists (r : interface * bool) st' new,
    (if notnil (groupFetcher (cache st)) then groupFetch id st
     else Fetch id st) = Some (r, st') /\
    goroutines st' = goroutines st /\
    calls st' = calls st ++ new /\
    new <> [] /\
    Forall (strategy_call (fetcher (cache st)) (groupFetcher (cache st)) id)
           new.
Proof.
  intros Hconf.
  destruct (groupFetcher (cache st)) as [g|] eqn:Hg; cbn in *.
  - destruct (g (world st)) as [[objects err] w1] eqn:Hr.
    destruct (notnil err || negb (notnil objects)) eqn:Hc.
    + destruct (fetcher (cache st)) as [f|] eqn:Hf.
      * rewrite (groupFetch_fallback _ _ _ _ _ _ _ Hg Hr Hc Hf).
        destruct (f id w1) as [[obj ferr] w2] eqn:Hr'.
        destruct (Fetch_outcome id
                    (mkState (cache st) w1 (calls st ++ [CallGroupFetcher g])
                             (goroutines st)) f obj ferr w2 Hf Hr')
          as (r & st' & -> & Hcalls & Hgo & _).
        exists r, st', [CallGroupFetcher g; CallFetcher f id].
        split; [done|]. split; [done|]. split.
        { rewrite Hcalls. cbn. by rewrite <- app_assoc. }
        split; [done|]. by repeat constructor.
      * rewrite (groupFetch_no_fallback _ _ _ _ _ _ Hg Hr Hc Hf).
        eexists _, _, [CallGroupFetcher g]. by repeat constructor.
    + destruct err; [done|]. destruct objects as [l|]; [|done].
      rewrite (groupFetch_success _ _ _ _ _ Hg Hr).
      eexists _, _, [CallGroupFetcher g]. by repeat constructor.
  - destruct (fetcher (cache st)) as [f|] eqn:Hf; [|done].
    destruct (f id (world st)) as [[obj ferr] w2] eqn:Hr'.
    destruct (Fetch_outcome id st f obj ferr w2 Hf Hr')
      as (r & st' & -> & Hcalls & Hgo & _).
    exists r, st', [CallFetcher f id]. by repeat constructor.
Qed.


(** C9. Whatever [Get], [Fetch] or [groupFetch] returns, the boolean is
    [true] exactly when the returned object is not nil: on a miss, a fresh
    hit, a stale hit, a fetch error and a fallback alike. *)
Theorem C9_found_iff_not_nil id st (r : interface * bool) st' :
  Get id st = Some (r, st') \/
  Fetch id st = Some (r, st') \/
  groupFetch id st = Some (r, st') ->
  snd r = notnil (fst r).
Proof.
  assert (HF : forall (s : State) (r' : interface * bool) (s' : State),
             Fetch id s = Some (r', s') ->
                               snd r' = notnil (fst r')).
  { intros s r' s' H. apply Fetch_inv in H as (f & obj & err & w1 & _ & _ & H).
    destruct H as [(_ & -> & _)|(_ & -> & _)]; done. }
  assert (HG : forall (s : State) (r' : interface * bool) (s' : State),
             groupFetch id s = Some (r', s') ->
                               snd r' = notnil (fst r')).
  { intros s r' s' H.
    apply groupFetch_inv in H as (g & objects & err & w1 & _ & _ & H).
    destruct H as [(_ & _ & -> & _)|[(_ & H)|(l & _ & _ & -> & _)]];
      [done|by eapply HF|done]. }
  intros [H|[H|H]]; [|by eapply HF|by eapply HG].
  destruct (items (cache st) !! id) as [item|] eqn:Hi.
  - rewrite (Get_hit _ _ _ Hi) in H. by injection H as <- <-.
  - rewrite (Get_miss _ _ Hi) in H.
    destruct (notnil (groupFetcher (cache st))); [by eapply HG|by eapply HF].
Qed.

(** ** The single-key fetch *)

(** C4. When the single-key fetcher returns an error, [Fetch] reports
    [(nil, false)] and leaves the cache, hence the entry map, as it was.  A
    prior entry for the key is untouched and a following [Get] still returns
    its object.  With no entry for the key, [Get] reports not-found and
    stores nothing, both when the single fetch is the strategy and when it
    is the fallback of a failed group fetch. *)
Theorem C4_fetch_error_keeps_the_map id st (f : Fetcher) obj e w1 :
  fetcher (cache st) = Some f ->
  f id (world st) = ((obj, Some e), w1) ->
  exists st',
    Fetch id st = Some ((None, false), st') /\
    cache st' = cache st /\
    calls st' = calls st ++ [CallFetcher f id] /\
    (forall item, items (cache st) !! id = Some item ->
       items (cache st') !! id = Some item /\
       exists st'',
         Get id st' = Some ((object item, notnil (object item)), st'') /\
         cache st'' = cache st) /\
    (items (cache st) !! id = None ->
     groupFetcher (cache st) = None ->
     Get id st = Some ((None, false), st')) /\
    (forall (g : GroupFetcher) objects err wg obj' (e' : E) w2,
       items (cache st) !! id = None ->
       groupFetcher (cache st) = Some g ->
       g (world st) = ((objects, err), wg) ->
       notnil err || negb (notnil objects) = true ->
       f id wg = ((obj', Some e'), w2) ->
       exists st2,
         Get id st = Some ((None, false), st2) /\
         cache st2 = cache st).
Proof.
  intros Hf Hr. eexists. rewrite (Fetch_error _ _ _ _ _ _ Hf Hr).
  do 3 (split; [reflexivity|]). split; [|split].
  - intros item Hi. split; [done|]. eexists.
    rewrite (Get_hit _ _ item) by done. done.
  - intros Hi Hg. rewrite (Get_miss _ _ Hi), Hg. cbn.
    by rewrite (Fetch_error _ _ _ _ _ _ Hf Hr).
  - intros g objects err wg obj' e' w2 Hi Hg Hgr Hc Hr'. eexists.
    rewrite (Get_miss _ _ Hi), Hg. cbn.
    rewrite (groupFetch_fallback _ _ _ _ _ _ _ Hg Hgr Hc Hf).
    erewrite Fetch_error by (cbn; eauto). done.
Qed.

(** C3, as the code has it. For a key with no entry [Get] runs one fetch to
    completion before it returns, a group fetch when a group fetcher is
    configured and a single fetch otherwise.
    - Single fetch: the fetcher is invoked once; on success the object is
      stored and [(object, object != nil)] returned, on an error nothing is
      stored and [(nil, false)] returned.
    - Group fetch returning a non-nil mapping without error: the group
      fetcher is invoked once, the pairs of the mapping are stored and the
      requested key's value is returned with [found = (value != nil)]; for
      an empty mapping that is [(nil, false)] with nothing stored.
    - Group fetch returning an error or a nil mapping, no single-key fetcher
      configured: nothing is stored and [(nil, false)] returned.
    - Group fetch returning an error or a nil mapping, single-key fetcher
      configured: the single fetch runs as well (a second invocation), and
      its outcome is the answer. *)
Theorem C3_miss_fetches_before_returning id st :
  items (cache st) !! id = None ->
  (forall (f : Fetcher) obj err w1,
     groupFetcher (cache st) = None ->
     fetcher (cache st) = Some f ->
     f id (world st) = ((obj, err), w1) ->
     exists r st',
       Get id st = Some (r, st') /\
       single_fetch_outcome time_Now id f obj err w1 st r st') /\
  (forall (g : GroupFetcher) objects err w1,
     groupFetcher (cache st) = Some g ->
     g (world st) = ((objects, err), w1) ->
     if notnil err || negb (notnil objects) then
       match fetcher (cache st) with
       | None =>
           exists st',
             Get id st = Some ((None, false), st') /\
             cache st' = cache st /\
             calls st' = calls st ++ [CallGroupFetcher g]
       | Some f =>
           forall obj ferr w2,
             f id w1 = ((obj, ferr), w2) ->
             exists r st',
               Get id st = Some (r, st') /\
               single_fetch_outcome time_Now id f obj ferr w2
                 (mkState (cache st) w1 (calls st ++ [CallGroupFetcher g])
                          (goroutines st))
                 r st'
       end
     else
       exists st',
         Get id st =
           Some ((picked id (entries objects) None,
                  notnil (picked id (entries objects) None)), st') /\
         items (cache st') =
           stored (ttl (cache st)) (entries objects) w1 (items (cache st)) /\
         (entries objects = [] ->
          picked id (entries objects) None = None /\
          cache st' = cache st) /\
         calls st' = calls st ++ [CallGroupFetcher g]).
Proof.
  intros Hi. split.
  - intros f obj err w1 Hg Hf Hr. rewrite (Get_miss _ _ Hi), Hg. cbn.
    by apply Fetch_outcome.
  - intros g objects err w1 Hg Hr. rewrite (Get_miss _ _ Hi), Hg. cbn.
    destruct (notnil err || negb (notnil objects)) eqn:Hc.
    + destruct (fetcher (cache st)) as [f|] eqn:Hf.
      * intros obj ferr w2 Hr'.
        rewrite (groupFetch_fallback _ _ _ _ _ _ _ Hg Hr Hc Hf).
        by apply Fetch_outcome.
      * rewrite (groupFetch_no_fallback _ _ _ _ _ _ Hg Hr Hc Hf).
        by eexists.
    + destruct err; [done|]. destruct objects as [l|]; [|done].
      rewrite (groupFetch_success _ _ _ _ _ Hg Hr). eexists.
      split; [reflexivity|]. split; [reflexivity|]. split; [|reflexivity].
      cbn. intros ->. split; [done|]. by destruct st as [[] ? ? ?].
Qed.

(** ** The group fetch *)

(** C6, as the code has it. When the group fetcher returns an error or a
    nil mapping: with a single-key fetcher configured, [groupFetch] is the
    single fetch of the requested key, run once after the group call, with
    the single fetch's outcome; with none configured, the key is reported
    absent and the cache is left untouched.  An empty mapping that is not
    nil, returned without error, is not a failure: there is no fallback,
    the single-key fetcher is not invoked, the key is reported absent and
    the cache is left untouched. *)
Theorem C6_group_failure_falls_back id st (g : GroupFetcher) objects err w1 :
  groupFetcher (cache st) = Some g ->
  g (world st) = ((objects, err), w1) ->
  (notnil err = true \/ objects = None ->
   match fetcher (cache st) with
   | Some f =>
       groupFetch id st =
         Fetch id (mkState (cache st) w1 (calls st ++ [CallGroupFetcher g])
                           (goroutines st)) /\
       forall obj ferr w2,
         f id w1 = ((obj, ferr), w2) ->
         exists r st',
           groupFetch id st = Some (r, st') /\
           calls st' = calls st ++ [CallGroupFetcher g; CallFetcher f id] /\
           single_fetch_outcome time_Now id f obj ferr w2
             (mkState (cache st) w1 (calls st ++ [CallGroupFetcher g])
                      (goroutines st))
             r st'
   | None =>
       exists st',
         groupFetch id st = Some ((None, false), st') /\
         cache st' = cache st /\
         calls st' = calls st ++ [CallGroupFetcher g]
   end) /\
  (err = None -> objects = Some [] ->
   exists st',
     groupFetch id st = Some ((None, false), st') /\
     cache st' = cache st /\
     calls st' = calls st ++ [CallGroupFetcher g]).
Proof.
  intros Hg Hr. split.
  - intros Hfail.
    assert (Hc : notnil err || negb (notnil objects) = true).
    { destruct Hfail as [->| ->]; [done|]. by rewrite orb_true_r. }
    destruct (fetcher (cache st)) as [f|] eqn:Hf.
    + rewrite (groupFetch_fallback _ _ _ _ _ _ _ Hg Hr Hc Hf).
      split; [done|]. intros obj ferr w2 Hr'.
      destruct (Fetch_outcome id
                  (mkState (cache st) w1 (calls st ++ [CallGroupFetcher g])
                           (goroutines st)) f obj ferr w2 Hf Hr')
        as (r & st' & HF & Hout).
      exists r, st'. split; [done|]. split; [|done].
      destruct Hout as [-> _]. cbn. by rewrite <- app_assoc.
    + rewrite (groupFetch_no_fallback _ _ _ _ _ _ Hg Hr Hc Hf). by eexists.
  - intros -> ->. rewrite (groupFetch_success _ _ _ _ _ Hg Hr).
    eexists. split; [reflexivity|]. split; [|reflexivity].
    by destruct st as [[] ? ? ?].
Qed.

(** C7. When the group fetcher succeeds with a non-nil mapping (a non-empty
    one in particular), every pair of the mapping is stored, the [i]-th one
    visited expiring [ttl] after the [i]-th clock reading of the loop, keys
    outside the mapping are untouched, the single-key fetcher is not
    invoked, and the value the mapping has for the requested key is
    returned with [found = (value != nil)]; when the mapping has no such
    key, [(nil, false)] is returned. *)
Theorem C7_group_success_stores_every_pair
    id st (g : GroupFetcher) (l : list (string * interface)) w1 :
  groupFetcher (cache st) = Some g ->
  g (world st) = ((Some l, None), w1) ->
  NoDup l.*1 ->
  exists res st',
    groupFetch id st = Some ((res, notnil res), st') /\
    calls st' = calls st ++ [CallGroupFetcher g] /\
    goroutines st' = goroutines st /\
    (forall i k v,
       l !! i = Some (k, v) ->
       items (cache st') !! k =
         Some (mkItem v (clock_at (ticks i w1) + ttl (cache st)))) /\
    (forall k, k ∉ l.*1 -> items (cache st') !! k = items (cache st) !! k) /\
    (forall v, (id, v) ∈ l -> res = v) /\
    (id ∉ l.*1 -> res = None).
Proof.
  intros Hg Hr Hnd. eexists _, _.
  rewrite (groupFetch_success _ _ _ _ _ Hg Hr).
  do 3 (split; [reflexivity|]). cbn. repeat split.
  - intros i k v Hi. by apply stored_lookup.
  - intros k Hk. by apply stored_notin.
  - intros v Hin. by apply picked_in.
  - intros Hk. by apply picked_notin.
Qed.

(** ** The strategy swap *)

(** C8. [SwapCache] installs the two strategies it is given and changes
    nothing else: every cached entry keeps its object and its expiry, and
    the ttl, the world, the record of invocations and the pending goroutines
    are as before.  After the swap a key that is still fresh is answered
    from the cache with no strategy invoked; a missing key is fetched, before
    [Get] returns, by invocations of the newly installed strategies only;
    and an expired key is answered stale while the refresh it starts, once
    scheduled, invokes the newly installed strategies only. *)
Theorem C8_swap_keeps_entries_and_switches_strategy
    st (f' : option Fetcher) (g' : option GroupFetcher) :
  exists st1,
    SwapCache f' g' st = Some (tt, st1) /\
    fetcher (cache st1) = f' /\
    groupFetcher (cache st1) = g' /\
    items (cache st1) = items (cache st) /\
    ttl (cache st1) = ttl (cache st) /\
    world st1 = world st /\ calls st1 = calls st /\
    goroutines st1 = goroutines st /\
    (forall id (item : Item),
       items (cache st) !! id = Some item ->
       clock_at (world st) <= expires item ->
       exists st2,
         Get id st1 = Some ((object item, notnil (object item)), st2) /\
         calls st2 = calls st /\ goroutines st2 = goroutines st) /\
    (notnil g' || notnil f' = true ->
     (forall id,
        items (cache st) !! id = None ->
        exists r st2 new,
          Get id st1 = Some (r, st2) /\
          calls st2 = calls st ++ new /\ new <> [] /\
          Forall (strategy_call f' g' id) new) /\
     (forall id (item : Item),
        items (cache st) !! id = Some item ->
        expires item < clock_at (world st) ->
        exists st2 st3 new,
          Get id st1 = Some ((object item, notnil (object item)), st2) /\
          calls st2 = calls st /\
          schedule (length (goroutines st)) st2 = Some (tt, st3) /\
          calls st3 = calls st ++ new /\ new <> [] /\
          Forall (strategy_call f' g' id) new)).
Proof.
  eexists. split; [reflexivity|]. cbn. do 7 (split; [reflexivity|]).
  set (st1 := mkState (mkLazyCache f' g' (ttl (cache st)) (items (cache st)))
                      (world st) (calls st) (goroutines st)).
  split; [|intros Hconf; split].
  - intros id item Hi Hfresh. eexists.
    rewrite (Get_hit id st1 item Hi). cbn.
    assert (After (clock_at (world st)) (expires item) = false) as ->
      by (unfold After; lia).
    by rewrite app_nil_r.
  - intros id Hi. rewrite (Get_miss id st1 Hi).
    destruct (refresh_invokes_configured id st1 Hconf)
      as (r & st2 & new & HR & _ & Hcalls & Hne & Hall).
    by exists r, st2, new.
  - intros id item Hi Hstale. eexists.
    rewrite (Get_hit id st1 item Hi). cbn.
    assert (After (clock_at (world st)) (expires item) = true) as ->
      by (unfold After; lia).
    set (st2 := mkState _ _ _ _).
    rewrite (schedule_last (goroutines st) (refresh_of id st1) st2 eq_refl).
    cbn.
    destruct (refresh_invokes_configured id
                (mkState (cache st1) (tick (world st)) (calls st)
                         (goroutines st)) Hconf)
      as (r & st3 & new & HR & _ & Hcalls & Hne & Hall).
    exists st3, new. split; [done|]. split; [done|].
    split; [|done]. unfold refresh_of, run. cbn in *.
    destruct (notnil g'); unfold bind; by rewrite HR.
Qed.

(** ** How a present key becomes not-found *)

Lemma stored_cases ttl (l : list (string * interface)) k : forall w m,
  (exists v t, (k, v) ∈ l /\ stored ttl l w m !! k = Some (mkItem v t)) \/
  stored ttl l w m !! k = m !! k.
Proof.
  induction l as [|[k' v'] l IH]; intros w m; [by right|]. cbn.
  destruct (IH (tick w) (<[k' := mkItem v' (clock_at w + ttl)]> m))
    as [(v & t & Hin & Hl)|Hl].
  - left. exists v, t. split; [by right|done].
  - rewrite Hl. destruct (decide (k' = k)) as [->|Hne].
    + left. exists v', (clock_at w + ttl). rewrite lookup_insert_eq.
      split; [by left|done].
    + right. by rewrite lookup_insert_ne.
Qed.




(** * Further properties of the package *)

(** ** What a call leaves alone *)

Lemma stored_is_Some ttl (l : list (string * interface)) k w
    (m : gmap string Item) :
  is_Some (m !! k) -> is_Some (stored ttl l w m !! k).
Proof.
  intros Hk. destruct (stored_cases ttl l k w m) as [(v & t & _ & ->) | ->];
    [by eexists|done].
Qed.

(** The effect of a returning [Fetch] on the cache: the strategies and the
    ttl stay, no key loses its entry, and only the fetched key can change. *)
Lemma Fetch_frame id st (r : interface * bool) st' :
  Fetch id st = Some (r, st') ->
  fetcher (cache st') = fetcher (cache st) /\
  groupFetcher (cache st') = groupFetcher (cache st) /\
  ttl (cache st') = ttl (cache st) /\
  (forall k, is_Some (items (cache st) !! k) ->
             is_Some (items (cache st') !! k)) /\
  (forall k, k <> id -> items (cache st') !! k = items (cache st) !! k).
Proof.
  intros H. apply Fetch_inv in H as (f & obj & err & w1 & _ & _ & H).
  destruct H as [(_ & _ & ->)|(_ & _ & ->)]; cbn; [done|].
  do 3 (split; [done|]). split.
  - intros k Hk. destruct (decide (id = k)) as [->|Hne].
    + rewrite lookup_insert_eq. by eexists.
    + by rewrite lookup_insert_ne.
  - intros k Hne. by rewrite lookup_insert_ne.
Qed.

Lemma groupFetch_frame id st (r : interface * bool) st' :
  groupFetch id st = Some (r, st') ->
  fetcher (cache st') = fetcher (cache st) /\
  groupFetcher (cache st') = groupFetcher (cache st) /\
  ttl (cache st') = ttl (cache st) /\
  (forall k, is_Some (items (cache st) !! k) ->
             is_Some (items (cache st') !! k)).
Proof.
  intros H. apply groupFetch_inv in H as (g & objects & err & w1 & _ & _ & H).
  destruct H as [(_ & _ & _ & ->)|[(_ & HF)|(l & _ & _ & _ & ->)]]; cbn.
  - done.
  - apply Fetch_frame in HF as (? & ? & ? & ? & _). done.
  - do 3 (split; [done|]). intros k Hk. by apply stored_is_Some.
Qed.

Lemma Get_frame id st (r : interface * bool) st' :
  Get id st = Some (r, st') ->
  fetcher (cache st') = fetcher (cache st) /\
  groupFetcher (cache st') = groupFetcher (cache st) /\
  ttl (cache st') = ttl (cache st) /\
  (forall k, is_Some (items (cache st) !! k) ->
             is_Some (items (cache st') !! k)).
Proof.
  intros H. destruct (items (cache st) !! id) as [item|] eqn:Hi.
  - rewrite (Get_hit _ _ _ Hi) in H. by injection H as _ <-.
  - rewrite (Get_miss _ _ Hi) in H.
    destruct (notnil (groupFetcher (cache st))).
    + by apply groupFetch_frame in H.
    + apply Fetch_frame in H as (? & ? & ? & ? & _). done.
Qed.

(** Entries are never removed, and only [SwapCache] changes the
    configuration: whatever a client or the scheduler does next, every key
    that has an entry keeps one, the ttl stays what it was, and the two
    strategies stay what they were unless the step is a [SwapCache]. *)
Theorem step_keeps_entries_and_configuration op st st' :
  exec op st = Some (tt, st') ->
  (forall k, is_Some (items (cache st) !! k) ->
             is_Some (items (cache st') !! k)) /\
  ttl (cache st') = ttl (cache st) /\
  ((forall f g, op <> OpSwapCache f g) ->
   fetcher (cache st') = fetcher (cache st) /\
   groupFetcher (cache st') = groupFetcher (cache st)).
Proof.
  intros Hex.
  assert (Hgen : fetcher (cache st') = fetcher (cache st) /\
                 groupFetcher (cache st') = groupFetcher (cache st) /\
                 ttl (cache st') = ttl (cache st) /\
                 (forall k, is_Some (items (cache st) !! k) ->
                            is_Some (items (cache st') !! k)) ->
                 (forall k, is_Some (items (cache st) !! k) ->
                            is_Some (items (cache st') !! k)) /\
                 ttl (cache st') = ttl (cache st) /\
                 ((forall f g, op <> OpSwapCache f g) ->
                  fetcher (cache st') = fetcher (cache st) /\
                  groupFetcher (cache st') = groupFetcher (cache st)))
    by (intros (? & ? & ? & ?); done).
  destruct op as [id|id obj|id|id|f g|n]; cbn in Hex; unfold bind in Hex.
  - destruct (Get id st) as [[r s]|] eqn:H; [|done]. injection Hex as <-.
    apply Hgen. by apply Get_frame in H.
  - rewrite Set_eq in Hex. injection Hex as <-. apply Hgen. cbn.
    do 3 (split; [done|]). intros k Hk.
    destruct (decide (id = k)) as [->|Hne].
    + rewrite lookup_insert_eq. by eexists.
    + by rewrite lookup_insert_ne.
  - destruct (Fetch id st) as [[r s]|] eqn:H; [|done]. injection Hex as <-.
    apply Hgen. apply Fetch_frame in H as (? & ? & ? & ? & _). done.
  - destruct (groupFetch id st) as [[r s]|] eqn:H; [|done].
    injection Hex as <-. apply Hgen. by apply groupFetch_frame in H.
  - injection Hex as <-. cbn. do 2 (split; [done|]).
    intros Hns. by destruct (Hns f g).
  - unfold schedule in Hex.
    destruct (goroutines st !! n) as [[id|id]|]; cbn in Hex;
      unfold bind in Hex.
    + destruct (Fetch id _) as [[r s]|] eqn:H; [|done]. injection Hex as <-.
      apply Hgen. apply Fetch_frame in H as (? & ? & ? & ? & _). done.
    + destruct (groupFetch id _) as [[r s]|] eqn:H; [|done].
      injection Hex as <-. apply Hgen. by apply groupFetch_frame in H.
    + injection Hex as <-. by apply Hgen.
Qed.

(** With no group fetcher configured, a call for one key never touches the
    entry of another key: [Get], [Set] and [Fetch] are local to their key. *)
Theorem single_key_calls_are_local id obj k st st' :
  groupFetcher (cache st) = None ->
  k <> id ->
  exec (OpGet id) st = Some (tt, st') \/
  exec (OpSet id obj) st = Some (tt, st') \/
  exec (OpFetch id) st = Some (tt, st') ->
  items (cache st') !! k = items (cache st) !! k.
Proof.
  intros Hg Hne [Hex|[Hex|Hex]]; cbn in Hex; unfold bind in Hex.
  - destruct (Get id st) as [[r s]|] eqn:H; [|done]. injection Hex as <-.
    destruct (items (cache st) !! id) as [item|] eqn:Hi.
    + rewrite (Get_hit _ _ _ Hi) in H. by injection H as _ <-.
    + rewrite (Get_miss _ _ Hi), Hg in H. cbn in H.
      apply Fetch_frame in H as (_ & _ & _ & _ & H). by apply H.
  - rewrite Set_eq in Hex. injection Hex as <-. cbn.
    by rewrite lookup_insert_ne.
  - destruct (Fetch id st) as [[r s]|] eqn:H; [|done]. injection Hex as <-.
    apply Fetch_frame in H as (_ & _ & _ & _ & H). by apply H.
Qed.

(** ** The write path *)

(** [Set] followed by [Get]: when the clock reading of the read is not past
    the expiry the write computed, the read returns what was written, with
    [found = (object != nil)], invokes no strategy and starts no refresh. *)
Theorem Set_then_Get_reads_back id obj st :
  clock_at (tick (world st)) <= clock_at (world st) + ttl (cache st) ->
  exists st1 st2,
    Set_ id obj st = Some (tt, st1) /\
    Get id st1 = Some ((obj, notnil obj), st2) /\
    cache st2 = cache st1 /\
    calls st2 = calls st /\
    goroutines st2 = goroutines st.
Proof.
  intros Hfresh. eexists _, _. rewrite Set_eq. split; [reflexivity|].
  erewrite Get_hit by (cbn; apply lookup_insert_eq). cbn.
  assert (After (clock_at (tick (world st)))
                (clock_at (world st) + ttl (cache st)) = false) as ->
    by (unfold After; lia).
  by rewrite app_nil_r.
Qed.

(** Two writes to one key: the last writer wins.  The entry map is the one
    a single [Set] of the second object leaves, with the expiry computed at
    the second clock reading; nothing of the first write remains. *)
Theorem Set_twice_last_writer_wins id obj1 obj2 st :
  exists st1 st2,
    Set_ id obj1 st = Some (tt, st1) /\
    Set_ id obj2 st1 = Some (tt, st2) /\
    items (cache st2) =
      <[id := mkItem obj2 (clock_at (tick (world st)) + ttl (cache st))]>
        (items (cache st)) /\
    calls st2 = calls st /\
    goroutines st2 = goroutines st.
Proof.
  eexists _, _. rewrite Set_eq. split; [reflexivity|].
  rewrite Set_eq. split; [reflexivity|]. cbn.
  by rewrite insert_insert_eq.
Qed.

(** ** Panics *)


(** A stale read under a group strategy starts [go cache.groupFetch(id)];
    when [SwapCache] removes the group fetcher before that goroutine runs,
    the goroutine calls a nil function and the program panics. *)
Theorem swap_to_single_crashes_pending_group_refresh
    id st (item : Item) (g : GroupFetcher) (f' : option Fetcher) :
  items (cache st) !! id = Some item ->
  expires item < clock_at (world st) ->
  groupFetcher (cache st) = Some g ->
  exists st1 st2,
    Get id st = Some ((object item, notnil (object item)), st1) /\
    SwapCache f' None st1 = Some (tt, st2) /\
    schedule (length (goroutines st)) st2 = None.
Proof.
  intros Hi Hstale Hg. eexists _, _. rewrite (Get_hit _ _ _ Hi).
  assert (After (clock_at (world st)) (expires item) = true) as ->
    by (unfold After; lia).
  split; [reflexivity|]. split; [reflexivity|].
  erewrite schedule_last by reflexivity.
  unfold refresh_of. rewrite Hg. cbn. unfold bind.
  by rewrite groupFetch_panic.
Qed.

(** ** Reads and refreshes in sequence *)

(** Fetch once, then answer from the cache: after a miss served by a
    successful single fetch, a second read whose clock reading is not past
    the new expiry returns the same object (a nil one included) and the
    fetcher has been invoked once over the two reads. *)
Theorem miss_then_read_fetches_once id st (f : Fetcher) obj w1 :
  items (cache st) !! id = None ->
  groupFetcher (cache st) = None ->
  fetcher (cache st) = Some f ->
  f id (world st) = ((obj, None), w1) ->
  clock_at (tick w1) <= clock_at w1 + ttl (cache st) ->
  exists st1 st2,
    Get id st = Some ((obj, notnil obj), st1) /\
    Get id st1 = Some ((obj, notnil obj), st2) /\
    calls st2 = calls st ++ [CallFetcher f id] /\
    goroutines st2 = goroutines st.
Proof.
  intros Hi Hg Hf Hr Hfresh. eexists _, _.
  rewrite (Get_miss _ _ Hi), Hg. cbn.
  rewrite (Fetch_success _ _ _ _ _ Hf Hr). split; [reflexivity|].
  erewrite Get_hit by (cbn; apply lookup_insert_eq). cbn.
  assert (After (clock_at (tick w1)) (clock_at w1 + ttl (cache st)) = false)
    as -> by (unfold After; lia).
  by rewrite app_nil_r.
Qed.


(** Stale-while-revalidate, one full cycle with the single-key strategy:
    the read of an expired entry answers the old object and starts the
    refresh; once the refresh has run and its fetch succeeded, the next
    read answers the fetched object. *)
Theorem stale_read_then_refresh_then_fresh_value
    id st (item : Item) (f : Fetcher) obj w1 :
  items (cache st) !! id = Some item ->
  expires item < clock_at (world st) ->
  groupFetcher (cache st) = None ->
  fetcher (cache st) = Some f ->
  f id (tick (world st)) = ((obj, None), w1) ->
  exists st1 st2 st3,
    Get id st = Some ((object item, notnil (object item)), st1) /\
    schedule (length (goroutines st)) st1 = Some (tt, st2) /\
    calls st2 = calls st ++ [CallFetcher f id] /\
    goroutines st2 = goroutines st /\
    Get id st2 = Some ((obj, notnil obj), st3).
Proof.
  intros Hi Hstale Hg Hf Hr. eexists _, _, _. rewrite (Get_hit _ _ _ Hi).
  assert (After (clock_at (world st)) (expires item) = true) as ->
    by (unfold After; lia).
  split; [reflexivity|].
  erewrite schedule_last by reflexivity.
  unfold refresh_of. rewrite Hg. cbn. unfold bind.
  erewrite Fetch_success by (cbn; eauto). cbn.
  do 3 (split; [reflexivity|]).
  erewrite Get_hit by (cbn; apply lookup_insert_eq). reflexivity.
Qed.

(** A refresh that fails is tried again by the next read: after the
    refresh of an expired entry ended in a fetch error, the entry map is as
    before, the next read still answers the old object and, the entry being
    still expired, starts another refresh. *)
Theorem failed_refresh_is_retried_by_next_read
    id st (item : Item) (f : Fetcher) obj e w1 :
  items (cache st) !! id = Some item ->
  expires item < clock_at (world st) ->
  groupFetcher (cache st) = None ->
  fetcher (cache st) = Some f ->
  f id (tick (world st)) = ((obj, Some e), w1) ->
  expires item < clock_at w1 ->
  exists st1 st2 st3,
    Get id st = Some ((object item, notnil (object item)), st1) /\
    schedule (length (goroutines st)) st1 = Some (tt, st2) /\
    cache st2 = cache st /\
    goroutines st2 = goroutines st /\
    Get id st2 = Some ((object item, notnil (object item)), st3) /\
    goroutines st3 = goroutines st ++ [GoFetch id].
Proof.
  intros Hi Hstale Hg Hf Hr Hstill. eexists _, _, _.
  rewrite (Get_hit _ _ _ Hi).
  assert (After (clock_at (world st)) (expires item) = true) as ->
    by (unfold After; lia).
  split; [reflexivity|].
  erewrite schedule_last by reflexivity.
  unfold refresh_of. rewrite Hg. cbn. unfold bind.
  erewrite Fetch_error by (cbn; eauto). cbn.
  do 3 (split; [reflexivity|]).
  erewrite Get_hit by (cbn; exact Hi). cbn.
  assert (After (clock_at w1) (expires item) = true) as ->
    by (unfold After; lia).
  unfold refresh_of. cbn. by rewrite Hg.
Qed.

(** One group fetch serves the sibling keys: after a successful group
    fetch requested for any key, a read of a key of the mapping whose clock
    reading is not past that key's expiry answers the mapping's value, and
    the group fetcher has been invoked once over the two calls. *)
Theorem group_fetch_then_sibling_read
    id st (g : GroupFetcher) (l : list (string * interface)) w1 i k v :
  groupFetcher (cache st) = Some g ->
  g (world st) = ((Some l, None), w1) ->
  NoDup l.*1 ->
  l !! i = Some (k, v) ->
  clock_at (ticks (length l) w1) <= clock_at (ticks i w1) + ttl (cache st) ->
  exists r st1 st2,
    groupFetch id st = Some (r, st1) /\
    Get k st1 = Some ((v, notnil v), st2) /\
    calls st2 = calls st ++ [CallGroupFetcher g] /\
    goroutines st2 = goroutines st.
Proof.
  intros Hg Hr Hnd Hl Hfresh. eexists _, _, _.
  rewrite (groupFetch_success _ _ _ _ _ Hg Hr). split; [reflexivity|].
  erewrite Get_hit by (cbn; by apply stored_lookup). cbn.
  assert (After (clock_at (ticks (length l) w1))
                (clock_at (ticks i w1) + ttl (cache st)) = false) as ->
    by (unfold After; lia).
  by rewrite app_nil_r.
Qed.

(** A group refresh that fails with no single-key fetcher configured leaves
    the stale entry alone: whether the group fetcher returned an error or a
    nil mapping, the cache is unchanged once the refresh has run, and the
    next read still answers the old object. *)
Theorem failed_group_refresh_keeps_stale_value
    id st (item : Item) (g : GroupFetcher) objects err w1 :
  items (cache st) !! id = Some item ->
  expires item < clock_at (world st) ->
  groupFetcher (cache st) = Some g ->
  fetcher (cache st) = None ->
  g (tick (world st)) = ((objects, err), w1) ->
  notnil err = true \/ objects = None ->
  exists st1 st2 st3,
    Get id st = Some ((object item, notnil (object item)), st1) /\
    schedule (length (goroutines st)) st1 = Some (tt, st2) /\
    cache st2 = cache st /\
    calls st2 = calls st ++ [CallGroupFetcher g] /\
    Get id st2 = Some ((object item, notnil (object item)), st3).
Proof.
  intros Hi Hstale Hg Hf Hr Hfail.
  assert (Hc : notnil err || negb (notnil objects) = true).
  { destruct Hfail as [->| ->]; [done|]. by rewrite orb_true_r. }
  eexists _, _, _. rewrite (Get_hit _ _ _ Hi).
  assert (After (clock_at (world st)) (expires item) = true) as ->
    by (unfold After; lia).
  split; [reflexivity|].
  erewrite schedule_last by reflexivity.
  unfold refresh_of. rewrite Hg. cbn. unfold bind.
  erewrite groupFetch_no_fallback by (cbn; eauto). cbn.
  do 3 (split; [reflexivity|]).
  erewrite Get_hit by (cbn; exact Hi). reflexivity.
Qed.

(** ** The earlier revision *)

(** In the earlier revision an error comes back only from a miss whose
    fetch failed, together with [(nil, false)] and an unchanged cache; a
    key that has an entry is answered with a nil error, and the boolean is
    always [object != nil]. *)
Theorem Legacy_Get_error_only_on_failed_miss
    id st v (b : bool) (err : @error E) st' :
  Legacy.Get time_Now id st = Some ((v, b, err), st') ->
  b = notnil v /\
  (notnil err = true ->
   v = None /\ items (cache st) !! id = None /\ cache st' = cache st) /\
  (is_Some (items (cache st) !! id) -> err = None).
Proof.
  unfold Legacy.Get, Legacy.Fetch, bind, getCache, ret, go. cbn.
  destruct (items (cache st) !! id) as [item|] eqn:Hi.
  - rewrite now_eq. cbn. intros H.
    destruct (After _ _); injection H as <- <- <- <-; by repeat split.
  - destruct (fetcher (cache st)) as [f|]; [|done].
    unfold callFetcher. destruct (f id (world st)) as [[obj [e|]] w1]; cbn.
    + intros H. injection H as <- <- <- <-. split; [done|]. split; [done|].
      by intros [? ?].
    + rewrite Set_eq. cbn. intros H. injection H as <- <- <- <-.
      split; [done|]. split; [done|]. by intros [? ?].
Qed.

(** The present [Get] refines the earlier one: with no group fetcher
    configured it returns the earlier [Get]'s object and boolean, drops the
    error, and leaves the same state; it panics exactly when the earlier
    one does. *)
Theorem Get_without_group_is_Legacy_Get id st :
  groupFetcher (cache st) = None ->
  Get id st =
  match Legacy.Get time_Now id st with
  | Some ((v, b, _), st') => Some ((v, b), st')
  | None => None
  end.
Proof.
  intros Hg. unfold Legacy.Get, Legacy.Fetch.
  destruct (items (cache st) !! id) as [item|] eqn:Hi.
  - rewrite (Get_hit _ _ _ Hi). unfold bind, getCache, ret, go. cbn.
    rewrite Hi. rewrite now_eq. cbn. unfold refresh_of. rewrite Hg. cbn.
    destruct (After _ _); cbn; by rewrite ?app_nil_r.
  - rewrite (Get_miss _ _ Hi), Hg. cbn.
    unfold bind, getCache, ret, panic. cbn. rewrite Hi.
    destruct (fetcher (cache st)) as [f|] eqn:Hf;
      [|by rewrite Fetch_panic].
    unfold callFetcher. destruct (f id (world st)) as [[obj [e|]] w1] eqn:Hr.
    + by rewrite (Fetch_error _ _ _ _ _ _ Hf Hr).
    + rewrite (Fetch_success _ _ _ _ _ Hf Hr). cbn. rewrite Set_eq. cbn.
      by rewrite Hf.
Qed.

End Proofs.


(** * The theorems at the test suite's inputs *)


Lemma C2_witness :
  exists st',
    Get wallclock "Hi" fresh_hi = Some ((Some 1, true), st') /\
    calls st' = [] /\
    goroutines st' = [].
Proof.
  destruct (C2_fresh_read_does_not_fetch
              wallclock "Hi" fresh_hi (mkItem (Some 1) Second))
    as (st' & HG & _ & _ & Hc & Hgo).
  - reflexivity.
  - by vm_compute.
  - exists st'. split; [exact HG|]. split; [exact Hc|exact Hgo].
Defined.

Lemma C10_witness :
  exists st',
    Get wallclock "Hi" nil_hi = Some ((None, false), st') /\
    calls st' = [] /\
    goroutines st' = [].
Proof.
  destruct (C10_cached_nil_suppresses_fetch
              wallclock "Hi" nil_hi (mkItem None Minute))
    as (st' & HG & _ & Hc & Hgo).
  - reflexivity.
  - reflexivity.
  - by vm_compute.
  - exists st'. split; [exact HG|]. split; [exact Hc|exact Hgo].
Defined.

Lemma C9_witness :
  exists r st',
    Get wallclock "Hi" group_fallback = Some (r, st') /\
    fst r = Some 1 /\
    snd r = notnil (fst r).
Proof.
  eexists _, _. split; [vm_compute; reflexivity|]. split; [reflexivity|].
  eapply (C9_found_iff_not_nil wallclock "Hi" group_fallback).
  left. vm_compute. reflexivity.
Defined.

Lemma C4_witness :
  exists st' st'',
    Fetch wallclock "paul" stale_paul = Some ((None, false), st') /\
    cache st' = cache stale_paul /\
    Get wallclock "paul" st' = Some ((Some 99, true), st'').
Proof.
  destruct (C4_fetch_error_keeps_the_map
              wallclock "paul" stale_paul errorFetcher None "oops"%string
              (world stale_paul))
    as (st' & HF & Hc & _ & Hprior & _).
  - reflexivity.
  - reflexivity.
  - destruct (Hprior (mkItem (Some 99) (- Hour)) eq_refl)
      as (_ & st'' & HG & _).
    exists st', st''. split; [exact HF|]. split; [exact Hc|exact HG].
Defined.

Lemma C3_witness :
  exists r st',
    Get wallclock "Hi" group_fallback = Some (r, st') /\
    r = (Some 1, true) /\
    calls st' =
      [CallGroupFetcher groupNilFetcher; CallFetcher countFetcher "Hi"].
Proof.
  destruct (C3_miss_fetches_before_returning
              wallclock "Hi" group_fallback eq_refl) as [_ Hgroup].
  specialize (Hgroup groupNilFetcher None None (mkWorld 0 1 0)
                eq_refl eq_refl).
  cbn in Hgroup.
  destruct (Hgroup (Some 1) None (mkWorld 1 1 0) eq_refl)
    as (r & st' & HG & Hcalls & _ & Hr & _).
  exists r, st'. split; [exact HG|]. split; [exact Hr|exact Hcalls].
Defined.

Lemma C6_witness :
  exists r st',
    groupFetch wallclock "Hi" group_fallback = Some (r, st') /\
    r = (Some 1, true) /\
    calls st' =
      [CallGroupFetcher groupNilFetcher; CallFetcher countFetcher "Hi"].
Proof.
  destruct (C6_group_failure_falls_back
              wallclock "Hi" group_fallback groupNilFetcher None None
              (mkWorld 0 1 0) eq_refl eq_refl) as [Hfail _].
  specialize (Hfail (or_intror eq_refl)). cbn in Hfail.
  destruct Hfail as [_ Hfail].
  destruct (Hfail (Some 1) None (mkWorld 1 1 0) eq_refl)
    as (r & st' & HG & Hcalls & _ & _ & Hr & _).
  exists r, st'. split; [exact HG|]. split; [exact Hr|exact Hcalls].
Defined.

Lemma C7_witness :
  exists st',
    groupFetch wallclock "Hi" group_store = Some ((Some 0, true), st') /\
    items (cache st') !! "Hi"%string = Some (mkItem (Some 0) (0 + Second)) /\
    items (cache st') !! "Bye"%string = Some (mkItem (Some 0) (1 + Second)).
Proof.
  destruct (C7_group_success_stores_every_pair
              wallclock "Hi" group_store groupStoreFetcher
              [("Hi"%string, Some 0); ("Bye"%string, Some 0)]
              (world group_store) eq_refl eq_refl)
    as (res & st' & HG & _ & _ & Hstored & _ & Hres & _).
  - apply (bool_decide_unpack _). vm_compute. exact I.
  - exists st'.
    rewrite (Hres (Some 0)) in HG by (apply (bool_decide_unpack _); by vm_compute).
    split; [exact HG|]. split.
    + exact (Hstored 0%nat "Hi"%string (Some 0) eq_refl).
    + exact (Hstored 1%nat "Bye"%string (Some 0) eq_refl).
Defined.

Lemma C8_witness :
  exists st1 st2,
    SwapCache (Some countFetcher) (Some groupCountFetcher) fresh_hi =
      Some (tt, st1) /\
    items (cache st1) = items (cache fresh_hi) /\
    Get wallclock "Hi" st1 = Some ((Some 1, true), st2) /\
    calls st2 = [].
Proof.
  destruct (C8_swap_keeps_entries_and_switches_strategy
              wallclock fresh_hi (Some countFetcher) (Some groupCountFetcher))
    as (st1 & HS & _ & _ & Hitems & _ & _ & _ & _ & Hfresh & _).
  destruct (Hfresh "Hi"%string (mkItem (Some 1) Second) eq_refl)
    as (st2 & HG & Hc & _); [by vm_compute|].
  exists st1, st2. split; [exact HS|]. split; [exact Hitems|].
  split; [exact HG|exact Hc].
Defined.


(** * Where the code departs from the specification *)

(** C3 fails as stated: with a single-key fetcher configured next to the
    group fetcher, an absent (nil) group result does not end in
    [(nil, false)] with nothing stored.  [Get] goes on to the single fetch,
    a second invocation, stores its object and returns it. *)
Lemma C3_counterexample :
  items (cache group_fallback) !! "Hi"%string = None /\
  fst (groupNilFetcher (world group_fallback)) = (None, None) /\
  (exists st',
     Get wallclock "Hi" group_fallback = Some ((Some 1, true), st') /\
     items (cache st') !! "Hi"%string = Some (mkItem (Some 1) (0 + Minute)) /\
     calls st' =
       [CallGroupFetcher groupNilFetcher; CallFetcher countFetcher "Hi"]) /\
  ~ (exists st',
       Get wallclock "Hi" group_fallback = Some ((None, false), st') /\
       items (cache st') = items (cache group_fallback)).
Proof.
  split; [reflexivity|]. split; [reflexivity|]. split.
  - eexists. split; [vm_compute; reflexivity|]. split; reflexivity.
  - intros (st' & HG & _). vm_compute in HG. discriminate HG.
Qed.


(** C6 fails as stated: an empty mapping that is not nil does not trigger
    the fallback.  The configured single-key fetcher is never invoked and
    the key is reported absent. *)
Lemma C6_counterexample :
  fetcher (cache group_empty) = Some countFetcher /\
  fst (groupEmptyFetcher (world group_empty)) = (Some [], None) /\
  exists st',
    groupFetch wallclock "Hi" group_empty = Some ((None, false), st') /\
    calls st' = [CallGroupFetcher groupEmptyFetcher] /\
    count (world st') = 0.
Proof.
  split; [reflexivity|]. split; [reflexivity|].
  eexists. split; [vm_compute; reflexivity|]. by split.
Qed.

(** * The test suite, replayed *)

(** [TestReturnsCachedAndFetchesLazilyAfterTtl]: the first read fetches 1;
    after the ttl the second read still answers 1 and starts a refresh;
    once the refresh has run the counter is 2 and so is the third read. *)
Example test_returns_cached_and_fetches_lazily_after_ttl :
  exists st1 st2 st3 st4,
    Get wallclock "Hi" (start (New (Some countFetcher) Microsecond 1) 0) =
      Some ((Some 1, true), st1) /\
    Get wallclock "Hi"
        (mkState (cache st1) (sleep (5 * Microsecond) (world st1))
                 (calls st1) (goroutines st1)) =
      Some ((Some 1, true), st2) /\
    count (world st2) = 1 /\
    schedule wallclock 0 st2 = Some (tt, st3) /\
    count (world st3) = 2 /\
    Get wallclock "Hi" st3 = Some ((Some 2, true), st4).
Proof.
  eexists _, _, _, _. split; [vm_compute; reflexivity|].
  split; [vm_compute; reflexivity|]. split; [reflexivity|].
  split; [vm_compute; reflexivity|]. split; [reflexivity|].
  vm_compute. reflexivity.
Qed.

(** [TestGroupStoresMultipleValues]: one group fetch serves both keys. *)
Example test_group_stores_multiple_values :
  exists st1 st2,
    Get wallclock "Hi" group_store = Some ((Some 0, true), st1) /\
    Get wallclock "Bye" st1 = Some ((Some 0, true), st2) /\
    calls st2 = [CallGroupFetcher groupStoreFetcher].
Proof.
  eexists _, _. split; [vm_compute; reflexivity|].
  split; [vm_compute; reflexivity|]. reflexivity.
Qed.

(** [New(nil, ...)]: a miss with no strategy at all calls a nil function,
    and the program panics. *)
Example miss_without_strategy_panics :
  Get wallclock "Hi" (start (New None Second 1) 0) = None.
Proof. reflexivity. Qed.

(** * The further properties at the test suite's inputs *)

Lemma step_keeps_entries_and_configuration_witness :
  exists st',
    exec wallclock (OpGet "Bye") group_nil_value = Some (tt, st') /\
    is_Some (items (cache st') !! "Hi"%string) /\
    ttl (cache st') = Minute.
Proof.
  assert (H : exists st',
             exec wallclock (OpGet "Bye") group_nil_value = Some (tt, st'))
    by (eexists; vm_compute; reflexivity).
  destruct H as [st' H]. exists st'. split; [exact H|].
  destruct (step_keeps_entries_and_configuration
              wallclock (OpGet "Bye") group_nil_value st' H)
    as (Hkeep & Httl & _).
  split; [|exact Httl]. apply Hkeep. by eexists.
Defined.

Lemma single_key_calls_are_local_witness :
  exists st',
    exec wallclock (OpFetch "Hi") stale_paul = Some (tt, st') /\
    items (cache st') !! "paul"%string =
      Some (mkItem (Some 99) (- Hour)).
Proof.
  assert (H : exists st',
             exec wallclock (OpFetch "Hi") stale_paul = Some (tt, st'))
    by (eexists; vm_compute; reflexivity).
  destruct H as [st' H]. exists st'. split; [exact H|].
  rewrite (single_key_calls_are_local
             wallclock "Hi" None "paul" stale_paul st').
  - reflexivity.
  - reflexivity.
  - discriminate.
  - right; right. exact H.
Defined.

Lemma Set_then_Get_reads_back_witness :
  exists st1 st2,
    Set_ wallclock "Hi" (Some 7) single_empty = Some (tt, st1) /\
    Get wallclock "Hi" st1 = Some ((Some 7, true), st2) /\
    calls st2 = [].
Proof.
  destruct (Set_then_Get_reads_back wallclock "Hi" (Some 7) single_empty)
    as (st1 & st2 & HS & HG & _ & Hc & _); [by vm_compute|].
  exists st1, st2. split; [exact HS|]. split; [exact HG|exact Hc].
Defined.


Lemma swap_to_single_crashes_pending_group_refresh_witness :
  exists st1 st2,
    Get wallclock "Hi" group_nil_value = Some ((Some 99, true), st1) /\
    SwapCache (Some countFetcher) None st1 = Some (tt, st2) /\
    schedule wallclock 0 st2 = None.
Proof.
  destruct (swap_to_single_crashes_pending_group_refresh
              wallclock "Hi" group_nil_value (mkItem (Some 99) (- Minute))
              groupNilValueFetcher (Some countFetcher))
    as (st1 & st2 & HG & HS & Hp).
  - reflexivity.
  - by vm_compute.
  - reflexivity.
  - exists st1, st2. split; [exact HG|]. split; [exact HS|exact Hp].
Defined.

Lemma miss_then_read_fetches_once_witness :
  exists st1 st2,
    Get wallclock "Hi" single_empty = Some ((Some 1, true), st1) /\
    Get wallclock "Hi" st1 = Some ((Some 1, true), st2) /\
    calls st2 = [CallFetcher countFetcher "Hi"].
Proof.
  destruct (miss_then_read_fetches_once
              wallclock "Hi" single_empty countFetcher (Some 1)
              (mkWorld 1 0 0))
    as (st1 & st2 & HG1 & HG2 & Hc & _).
  - reflexivity.
  - reflexivity.
  - reflexivity.
  - reflexivity.
  - by vm_compute.
  - exists st1, st2. split; [exact HG1|]. split; [exact HG2|exact Hc].
Defined.


Lemma stale_read_then_refresh_then_fresh_value_witness :
  exists st1 st2 st3,
    Get wallclock "Hi" stale_count = Some ((Some 1, true), st1) /\
    schedule wallclock 0 st1 = Some (tt, st2) /\
    Get wallclock "Hi" st2 = Some ((Some 2, true), st3).
Proof.
  destruct (stale_read_then_refresh_then_fresh_value
              wallclock "Hi" stale_count
              (mkItem (Some 1) (- Minute)) countFetcher (Some 2)
              (mkWorld 2 0 1))
    as (st1 & st2 & st3 & HG1 & HS & _ & _ & HG2).
  - reflexivity.
  - by vm_compute.
  - reflexivity.
  - reflexivity.
  - reflexivity.
  - exists st1, st2, st3. split; [|split; [exact HS|exact HG2]].
    exact HG1.
Defined.

Lemma failed_refresh_is_retried_by_next_read_witness :
  exists st1 st2 st3,
    Get wallclock "paul" stale_paul = Some ((Some 99, true), st1) /\
    schedule wallclock 0 st1 = Some (tt, st2) /\
    Get wallclock "paul" st2 = Some ((Some 99, true), st3) /\
    goroutines st3 = [GoFetch "paul"].
Proof.
  destruct (failed_refresh_is_retried_by_next_read
              wallclock "paul" stale_paul (mkItem (Some 99) (- Hour))
              errorFetcher None "oops"%string (mkWorld 0 0 1))
    as (st1 & st2 & st3 & HG1 & HS & _ & _ & HG2 & Hgo).
  - reflexivity.
  - by vm_compute.
  - reflexivity.
  - reflexivity.
  - reflexivity.
  - by vm_compute.
  - exists st1, st2, st3. split; [exact HG1|]. split; [exact HS|].
    split; [exact HG2|exact Hgo].
Defined.

Lemma failed_group_refresh_keeps_stale_value_witness :
  exists st1 st2 st3,
    Get wallclock "Hi" (seed "Hi" (Some 99) (- Minute)
                          (start (NewGroup (Some groupNilFetcher) None
                                           Minute 1) 0)) =
      Some ((Some 99, true), st1) /\
    schedule wallclock 0 st1 = Some (tt, st2) /\
    Get wallclock "Hi" st2 = Some ((Some 99, true), st3).
Proof.
  destruct (failed_group_refresh_keeps_stale_value
              wallclock "Hi"
              (seed "Hi" (Some 99) (- Minute)
                 (start (NewGroup (Some groupNilFetcher) None Minute 1) 0))
              (mkItem (Some 99) (- Minute)) groupNilFetcher None None
              (mkWorld 0 1 1))
    as (st1 & st2 & st3 & HG1 & HS & _ & _ & HG2).
  - reflexivity.
  - by vm_compute.
  - reflexivity.
  - reflexivity.
  - reflexivity.
  - by right.
  - exists st1, st2, st3. split; [exact HG1|]. split; [exact HS|exact HG2].
Defined.

Lemma group_fetch_then_sibling_read_witness :
  exists r st1 st2,
    groupFetch wallclock "Hi" group_store = Some (r, st1) /\
    Get wallclock "Bye" st1 = Some ((Some 0, true), st2) /\
    calls st2 = [CallGroupFetcher groupStoreFetcher].
Proof.
  destruct (group_fetch_then_sibling_read
              wallclock "Hi" group_store groupStoreFetcher
              [("Hi"%string, Some 0); ("Bye"%string, Some 0)]
              (world group_store) 1%nat "Bye"%string (Some 0))
    as (r & st1 & st2 & HG1 & HG2 & Hc & _).
  - reflexivity.
  - reflexivity.
  - apply (bool_decide_unpack _). vm_compute. exact I.
  - reflexivity.
  - by vm_compute.
  - exists r, st1, st2. split; [exact HG1|]. split; [exact HG2|exact Hc].
Defined.

Lemma Legacy_Get_error_only_on_failed_miss_witness :
  exists st',
    Legacy.Get wallclock "paul" error_empty =
      Some ((None, false, Some "oops"%string), st') /\
    cache st' = cache error_empty.
Proof.
  assert (H : exists st',
             Legacy.Get wallclock "paul" error_empty =
               Some ((None, false, Some "oops"%string), st'))
    by (eexists; vm_compute; reflexivity).
  destruct H as [st' H]. exists st'. split; [exact H|].
  destruct (Legacy_Get_error_only_on_failed_miss
              wallclock "paul" error_empty None false
              (Some "oops"%string) st' H) as (_ & Herr & _).
  by destruct (Herr eq_refl) as (_ & _ & Hc).
Defined.

Lemma Get_without_group_is_Legacy_Get_witness :
  Get wallclock "Hi" single_empty =
  match Legacy.Get wallclock "Hi" single_empty with
  | Some ((v, b, _), st') => Some ((v, b), st')
  | None => None
  end.
Proof.
  apply (Get_without_group_is_Legacy_Get wallclock "Hi" single_empty).
  reflexivity.
Defined.
